(** * Lindenmayer systems: string rewriting and turtle interpretation

    A shallow embedding of [main_streamlit.py]: the grammar expander
    [_get_l_system], the rotation matrix [_rot_mat] and the turtle loop of
    [draw_l_system], with the properties the design document states about
    them.

    Modelling conventions.
    - A Python [str] is a [string]; iterating over it yields its characters
      ([ascii]), and a one-character string is [String c ""]. Nothing below
      uses more of a character than its equality with another.
    - [rules : dict[str, str]] is a [gmap string string]; [rules.get(k, d)]
      is [default d (rules !! k)].
    - [iterations : int] is a [Z]; [range(iterations)] has
      [Z.to_nat iterations] elements (none when it is negative).
    - The NumPy layer (scalars, [+], [*], unary minus, [np.cos], [np.sin],
      [np.radians]) is an interface, [Numeric]; the turtle is written once
      for every implementation of it.
    - A raised exception is the [Raises] branch of [outcome].
    - Of [main], the parts that compute are embedded: the table of presets,
      the default texts taken from a preset, and the parsing of the rules
      text into the dictionary that [draw_l_system] is given. *)

From Stdlib Require Import ZArith Ascii String List Lia Reals Lra.
From stdpp Require Import gmap strings list.

Local Open Scope Z_scope.

(** ** Grammar expander *)

Module Expander.

(** [rules.get(cmd, cmd)] for a character [cmd] of the instruction string:
    the dictionary is asked for the one-character string. *)
Definition rules_get (rules : gmap string string) (cmd : ascii) : string :=
  default (String cmd "") (rules !! String cmd "").

(** The inner loop, lines 11-14: [new_instructions] starts empty and every
    character of [instructions], left to right, appends its replacement. *)
Fixpoint inner_loop (rules : gmap string string) (instructions : string)
    (new_instructions : string) : string :=
  match instructions with
  | EmptyString => new_instructions
  | String cmd rest =>
      inner_loop rules rest (new_instructions +:+ rules_get rules cmd)
  end.

(** The outer loop, lines 10 and 15: each pass replaces [instructions] by
    the string the inner loop built. *)
Fixpoint outer_loop (rules : gmap string string) (passes : nat)
    (instructions : string) : string :=
  match passes with
  | O => instructions
  | S passes' => outer_loop rules passes' (inner_loop rules instructions "")
  end.

Definition _get_l_system (axiom : string) (rules : gmap string string)
    (iterations : Z) : string :=
  outer_loop rules (Z.to_nat iterations) axiom.

(** *** The expander as the design document words it *)

(** One generation: scan left to right, replace each symbol by [R[s]] when
    [s] is a key of [R] and keep it otherwise. *)
Fixpoint rewrite_generation (R : gmap string string) (s : string) : string :=
  match s with
  | EmptyString => EmptyString
  | String c rest =>
      match R !! String c "" with
      | Some replacement => replacement +:+ rewrite_generation R rest
      | None => String c (rewrite_generation R rest)
      end
  end.

(** [n] generations, each rewriting the output of the one before. *)
Fixpoint expand_spec (A : string) (R : gmap string string) (n : nat) : string :=
  match n with
  | O => A
  | S k => rewrite_generation R (expand_spec A R k)
  end.

(** The growth law's summand: the length a symbol contributes to the next
    generation. *)
Definition symbol_growth (R : gmap string string) (c : ascii) : nat :=
  match R !! String c "" with
  | Some replacement => String.length replacement
  | None => 1%nat
  end.

Fixpoint growth_sum (R : gmap string string) (s : string) : nat :=
  match s with
  | EmptyString => 0%nat
  | String c rest => (symbol_growth R c + growth_sum R rest)%nat
  end.

(** A key the inner loop can ever ask for: exactly one character. *)
Definition single_symbol (k : string) : bool :=
  match k with
  | String _ EmptyString => true
  | _ => false
  end.

Definition single_symbol_rules (rules : gmap string string) : gmap string string :=
  filter (fun kv => single_symbol kv.1 = true) rules.

End Expander.

Import Expander.

(** ** Exceptions *)

(** The one exception the core can raise: [stack.pop()] on an empty list
    raises Python's [IndexError] (the design document's StackUnderflow). *)
Inductive exception : Set :=
  | IndexError.

Inductive outcome (A : Type) : Type :=
  | Returns (a : A)
  | Raises (e : exception).

Arguments Returns {A} a.
Arguments Raises {A} e.

(** ** The numeric layer *)

(** What the turtle asks of NumPy: scalars (the entries of the arrays, the
    step length, the angle), the entries [0] and [1] of the initial arrays,
    [+], [*], unary minus, and the three functions [_rot_mat] calls. *)
Class Numeric : Type := {
  num : Type;
  num_zero : num;
  num_one : num;
  num_add : num -> num -> num;
  num_mul : num -> num -> num;
  num_neg : num -> num;
  np_cos : num -> num;
  np_sin : num -> num;
  np_radians : num -> num;
}.

(** Exact real arithmetic, with angles in degrees. *)
Definition exact_radians (x : R) : R := (x * PI / 180)%R.

#[export] Instance exact_arithmetic : Numeric := {|
  num := R;
  num_zero := 0%R;
  num_one := 1%R;
  num_add := Rplus;
  num_mul := Rmult;
  num_neg := Ropp;
  np_cos := cos;
  np_sin := sin;
  np_radians := exact_radians;
|}.

(** ** Turtle interpreter *)

Section Turtle.

Context {N : Numeric}.

(** A one-dimensional array of two entries, and a 2x2 array as its rows. *)
Definition vec : Type := num * num.
Definition mat : Type := vec * vec.

(** [a + b] and [k * a] on arrays, entry by entry. *)
Definition vec_add (a b : vec) : vec := (num_add a.1 b.1, num_add a.2 b.2).
Definition vec_scale (k : num) (a : vec) : vec := (num_mul k a.1, num_mul k a.2).

(** [np.dot(m, v)]: each row of [m] against [v]. *)
Definition np_dot (m : mat) (v : vec) : vec :=
  (num_add (num_mul m.1.1 v.1) (num_mul m.1.2 v.2),
   num_add (num_mul m.2.1 v.1) (num_mul m.2.2 v.2)).

Definition _rot_mat (angle : num) : mat :=
  ((np_cos (np_radians angle), num_neg (np_sin (np_radians angle))),
   (np_sin (np_radians angle), np_cos (np_radians angle))).

(** What one [ax.plot([x0, x1], [y0, y1], color=..., lw=...)] adds to the
    axes. *)
Record Line2D : Type := {
  xdata : num * num;
  ydata : num * num;
  line_color : string;
  line_lw : Z;
}.

Definition seg_start (l : Line2D) : vec := ((xdata l).1, (ydata l).1).
Definition seg_end (l : Line2D) : vec := ((xdata l).2, (ydata l).2).

Definition ax_plot (p q : vec) (color : string) (lw : Z) : Line2D :=
  {| xdata := (p.1, q.1); ydata := (p.2, q.2); line_color := color; line_lw := lw |}.

(** The loop's variables. [ax_lines] is what the axes of the figure hold, in
    the order it was plotted. [stack] is the Python list used as a stack: its
    last element is the head here, so [append] is a cons and [pop] takes the
    head.  The arrays on the stack are never written to afterwards (every
    update of [turtle_pos] and [turtle_heading] binds a new array), so a
    saved pair is a value. *)
Record turtle : Type := {
  turtle_pos : vec;
  turtle_heading : vec;
  stack : list (vec * vec);
  ax_lines : list Line2D;
}.

(** Lines 44-46. *)
Definition initial_turtle : turtle :=
  {| turtle_pos := (num_zero, num_zero);
     turtle_heading := (num_zero, num_one);
     stack := [];
     ax_lines := [] |}.

Section Interpreter.

Variables (angle length : num) (color : string) (lw : Z).

(** [turtle_pos + length * turtle_heading] *)
Definition new_pos (t : turtle) : vec :=
  vec_add (turtle_pos t) (vec_scale length (turtle_heading t)).

(** The body of the loop, lines 56-81: the if/elif chain on one character. *)
Definition exec (instruction : ascii) (t : turtle) : outcome turtle :=
  if Ascii.eqb instruction "F" then
    Returns {| turtle_pos := new_pos t;
               turtle_heading := turtle_heading t;
               stack := stack t;
               ax_lines := ax_lines t ++ [ax_plot (turtle_pos t) (new_pos t) color lw] |}
  else if Ascii.eqb instruction "b" then
    Returns {| turtle_pos := new_pos t;
               turtle_heading := turtle_heading t;
               stack := stack t;
               ax_lines := ax_lines t |}
  else if Ascii.eqb instruction "+" then
    Returns {| turtle_pos := turtle_pos t;
               turtle_heading := np_dot (_rot_mat angle) (turtle_heading t);
               stack := stack t;
               ax_lines := ax_lines t |}
  else if Ascii.eqb instruction "-" then
    Returns {| turtle_pos := turtle_pos t;
               turtle_heading := np_dot (_rot_mat (num_neg angle)) (turtle_heading t);
               stack := stack t;
               ax_lines := ax_lines t |}
  else if Ascii.eqb instruction "[" then
    Returns {| turtle_pos := turtle_pos t;
               turtle_heading := turtle_heading t;
               stack := (turtle_pos t, turtle_heading t) :: stack t;
               ax_lines := ax_lines t |}
  else if Ascii.eqb instruction "]" then
    match stack t with
    | [] => Raises IndexError
    | (saved_pos, saved_heading) :: below =>
        Returns {| turtle_pos := saved_pos;
                   turtle_heading := saved_heading;
                   stack := below;
                   ax_lines := ax_lines t |}
    end
  else Returns t.

(** The loop, line 55: the characters left to right; an exception ends it. *)
Fixpoint interpret (instructions : string) (t : turtle) : outcome turtle :=
  match instructions with
  | EmptyString => Returns t
  | String instruction rest =>
      match exec instruction t with
      | Returns t' => interpret rest t'
      | Raises e => Raises e
      end
  end.

End Interpreter.

Definition draw_l_system (axiom : string) (rules : gmap string string)
    (iterations : Z) (angle length : num) (color : string) (lw : Z)
    : outcome (list Line2D) :=
  let instructions := _get_l_system axiom rules iterations in
  match interpret angle length color lw instructions initial_turtle with
  | Returns t => Returns (ax_lines t)
  | Raises e => Raises e
  end.

(** The segments a caller gets: those of the figure, none when the call
    raised. *)
Definition segments_of (o : outcome (list Line2D)) : list Line2D :=
  match o with
  | Returns fig => fig
  | Raises _ => []
  end.

End Turtle.

(** The figure [draw_l_system] returns, as the lines of its axes. *)
Abbreviation Figure := (list Line2D).




(** ** Counting symbols and brackets *)

Fixpoint count_symbol (c : ascii) (s : string) : nat :=
  match s with
  | EmptyString => 0%nat
  | String c' rest =>
      ((if Ascii.eqb c' c then 1 else 0) + count_symbol c rest)%nat
  end.

(** The prefixes of a string, the empty one first. *)
Fixpoint prefixes (s : string) : list string :=
  "" :: match s with
        | EmptyString => []
        | String c rest => map (String c) (prefixes rest)
        end.

(** With [depth] states already on the stack, no prefix of [s] holds more
    than [depth] closing brackets beyond its opening ones. *)
Definition pops_matched_from (depth : nat) (s : string) : bool :=
  forallb (fun p => (count_symbol "]" p <=? depth + count_symbol "[" p)%nat)
          (prefixes s).

(** In every prefix the closing brackets do not outnumber the opening ones. *)
Definition pops_matched (s : string) : bool := pops_matched_from 0 s.

(** Every closing bracket has its opening one, and the other way round. *)
Definition balanced (s : string) : bool :=
  pops_matched s && (count_symbol "[" s =? count_symbol "]" s)%nat.

(** The command set of the interpreter. *)
Definition is_command (c : ascii) : bool :=
  Ascii.eqb c "F" || Ascii.eqb c "b" || Ascii.eqb c "+" || Ascii.eqb c "-"
  || Ascii.eqb c "[" || Ascii.eqb c "]".


(** Some symbol of [s] is a key of the rules. *)
Fixpoint has_rule (R : gmap string string) (s : string) : bool :=
  match s with
  | EmptyString => false
  | String c rest => bool_decide (is_Some (R !! String c "")) || has_rule R rest
  end.

(** A list of lines is chained when each one starts where the one before it
    ends. *)
Definition chained {N : Numeric} (ls : list Line2D) : Prop :=
  forall i l l', ls !! i = Some l -> ls !! S i = Some l' -> seg_start l' = seg_end l.

(** The path invariant of a sequence without [b] and closing brackets: the
    lines are chained, the turtle stands at the end of the last one, and the
    first one starts at [origin]. *)
Definition on_path {N : Numeric} (origin : vec) (t : turtle) : Prop :=
  chained (ax_lines t)
  /\ match last (ax_lines t) with
     | Some l => seg_end l = turtle_pos t
     | None => turtle_pos t = origin
     end
  /\ (forall l, ax_lines t !! 0%nat = Some l -> seg_start l = origin).

(** What the bracket theorems ask of a rules mapping: no rule rewrites a
    bracket, and every replacement has its brackets balanced. *)
Definition bracket_safe (rules : gmap string string) : Prop :=
  rules !! "[" = None /\ rules !! "]" = None
  /\ map_Forall (fun _ replacement => balanced replacement = true) rules.

(** ** The rules text of [main] *)

Module RulesText.

(** [s.split(sep)] for a one-character separator: the pieces between the
    occurrences of [sep], one more than there are occurrences. *)
Fixpoint str_split (sep : ascii) (s : string) : list string :=
  match s with
  | EmptyString => [""]
  | String c rest =>
      if Ascii.eqb c sep then "" :: str_split sep rest
      else match str_split sep rest with
           | piece :: pieces => String c piece :: pieces
           | [] => [String c ""]
           end
  end.

(** [dict(items)] either returns a dictionary or raises [ValueError]. *)
Inductive dict_result : Type :=
  | Dict (d : gmap string string)
  | ValueError.

(** [dict(items)] for items that are lists of strings: every item must have
    exactly two elements, key and value, and is stored in turn, so that a
    later item replaces an earlier one with the same key; an item of any
    other length raises [ValueError]. *)
Fixpoint dict_update (items : list (list string)) (d : gmap string string)
    : dict_result :=
  match items with
  | [] => Dict d
  | [k; v] :: rest => dict_update rest (<[k := v]> d)
  | _ :: _ => ValueError
  end.

Definition py_dict (items : list (list string)) : dict_result :=
  dict_update items ∅.

(** Line 160: [dict(rule.split(":") for rule in rules_text.split(","))]. *)
Definition parse_rules (rules_text : string) : dict_result :=
  py_dict (map (str_split ":") (str_split "," rules_text)).

(** The text of one rule, as the presets and the help text write it. *)
Definition rule_text (kv : string * string) : string := kv.1 +:+ ":" +:+ kv.2.

(** The angle of a preset as its literal is written: a number of degrees,
    or [np.pi / d]. *)
Inductive angle_literal : Set :=
  | AngleNumber (z : Z)
  | AnglePiOver (d : Z).

(** One entry of [default_settings]: a dictionary in which ["iterations"]
    and ["angle_in_radians"] may be missing. The rules are kept in the order
    they are written, which is the order [values()] lists them in. *)
Record preset : Set := {
  ps_name : string;
  ps_axiom : option string;
  ps_rules : option (list (string * string));
  ps_angle : option angle_literal;
  ps_iterations : option Z;
  ps_angle_in_radians : option bool;
}.

(** Lines 91-148. *)
Definition default_settings : list preset := [
  {| ps_name := "Koch's Snowflake";
     ps_axiom := Some "F++F++F";
     ps_rules := Some [("F", "F:F-F++F-F")];
     ps_angle := Some (AngleNumber 60);
     ps_iterations := None; ps_angle_in_radians := None |};
  {| ps_name := "Levy curve";
     ps_axiom := Some "F++F++F++F";
     ps_rules := Some [("F", "F:-F++F-")];
     ps_angle := Some (AngleNumber 45);
     ps_iterations := Some 8; ps_angle_in_radians := None |};
  {| ps_name := "Serpinski Triangle";
     ps_axiom := Some "FXF--FF--FF";
     ps_rules := Some [("F", "F:FF"); ("X", "X:--FXF++FXF++FXF--")];
     ps_angle := Some (AngleNumber 60);
     ps_iterations := Some 5; ps_angle_in_radians := None |};
  {| ps_name := "Sierpinski Carpet";
     ps_axiom := Some "F";
     ps_rules := Some [("F", "F:FFF[+FFF+FFF+FFF]")];
     ps_angle := Some (AngleNumber 90);
     ps_iterations := Some 4; ps_angle_in_radians := None |};
  {| ps_name := "Sierpinski Carpet 2";
     ps_axiom := Some "F+F+F+F";
     ps_rules := Some [("F", "F:FF+F+F+F+FF")];
     ps_angle := Some (AngleNumber 90);
     ps_iterations := None; ps_angle_in_radians := None |};
  {| ps_name := "Koch Curve Generalization";
     ps_axiom := Some "F+F+F+F";
     ps_rules := Some [("F", "F:F+F-F-FF+F+F-F")];
     ps_angle := Some (AngleNumber 90);
     ps_iterations := None; ps_angle_in_radians := None |};
  {| ps_name := "Mosaic";
     ps_axiom := Some "F+F+F+F";
     ps_rules := Some [("F", "F:F-b+FF-F-FF-Fb-FF+b-FF+F+FF+Fb+FFF");
                       ("b", "b:bbbbbb")];
     ps_angle := Some (AngleNumber 90);
     ps_iterations := Some 2; ps_angle_in_radians := None |};
  {| ps_name := "Weird Snowflake";
     ps_axiom := Some "F++F++F";
     ps_rules := Some [("F", "F:F+F--F+F")];
     ps_angle := Some (AngleNumber 60);
     ps_iterations := None; ps_angle_in_radians := None |};
  {| ps_name := "Tree";
     ps_axiom := Some "F";
     ps_rules := Some [("F", "F:FF+[+F-F-F]-[-F+F+F]")];
     ps_angle := Some (AnglePiOver 8);
     ps_iterations := None; ps_angle_in_radians := Some true |};
  {| ps_name := "Weed";
     ps_axiom := Some "F";
     ps_rules := Some [("F", "F:F[+F]F[-F]F")];
     ps_angle := Some (AnglePiOver 7);
     ps_iterations := None; ps_angle_in_radians := Some true |}
].

(** Line 154: [selected_settings.get("axiom", "F")]. *)
Definition default_axiom (p : preset) : string := default "F" (ps_axiom p).

(** Line 157:
    [",".join(selected_settings.get("rules", {"F": "F:F-F++F-F"}).values())]. *)
Definition default_rules_text (p : preset) : string :=
  String.concat "," (map snd (default [("F", "F:F-F++F-F")] (ps_rules p))).

(** Line 165: [selected_settings.get("iterations", 3)]. *)
Definition default_iterations (p : preset) : Z := default 3 (ps_iterations p).

End RulesText.

Import RulesText.

(** ** Facts about strings *)

Lemma append_cons (c : ascii) (s t : string) :
  String c s +:+ t = String c (s +:+ t).
Proof. reflexivity. Qed.

Lemma append_empty_r (s : string) : s +:+ "" = s.
Proof. induction s as [|c s IH]; [done|]. by rewrite append_cons, IH. Qed.

Lemma append_assoc (s t u : string) : (s +:+ t) +:+ u = s +:+ (t +:+ u).
Proof. induction s as [|c s IH]; [done|]. by rewrite !append_cons, IH. Qed.

Lemma length_append (s t : string) :
  String.length (s +:+ t) = (String.length s + String.length t)%nat.
Proof.
  induction s as [|c s IH]; [done|].
  rewrite append_cons. cbn [String.length]. by rewrite IH.
Qed.

(** ** The loops against the recursive wording *)

Lemma rules_get_spec (R : gmap string string) (c : ascii) (rest : string) :
  rules_get R c +:+ rest =
  match R !! String c "" with
  | Some replacement => replacement +:+ rest
  | None => String c rest
  end.
Proof. unfold rules_get. by destruct (R !! String c ""). Qed.

Lemma inner_loop_acc (R : gmap string string) (s acc : string) :
  inner_loop R s acc = acc +:+ rewrite_generation R s.
Proof.
  revert acc. induction s as [|c s IH]; intros acc; cbn [inner_loop rewrite_generation].
  - by rewrite append_empty_r.
  - rewrite IH, append_assoc. f_equal. apply rules_get_spec.
Qed.

Lemma inner_loop_spec (R : gmap string string) (s : string) :
  inner_loop R s "" = rewrite_generation R s.
Proof. by rewrite inner_loop_acc. Qed.

Lemma outer_loop_shift (R : gmap string string) (k : nat) (s : string) :
  outer_loop R k (rewrite_generation R s) = rewrite_generation R (outer_loop R k s).
Proof.
  revert s. induction k as [|k IH]; intros s; [done|].
  cbn [outer_loop]. by rewrite !inner_loop_spec, IH.
Qed.

Lemma outer_loop_spec (R : gmap string string) (k : nat) (A : string) :
  outer_loop R k A = expand_spec A R k.
Proof.
  induction k as [|k IH]; [done|].
  cbn [outer_loop expand_spec]. by rewrite inner_loop_spec, outer_loop_shift, IH.
Qed.

Lemma get_l_system_nat (A : string) (R : gmap string string) (n : nat) :
  _get_l_system A R (Z.of_nat n) = expand_spec A R n.
Proof. unfold _get_l_system. by rewrite Nat2Z.id, outer_loop_spec. Qed.

Lemma get_l_system_to_nat (A : string) (R : gmap string string) (iterations : Z) :
  _get_l_system A R iterations = expand_spec A R (Z.to_nat iterations).
Proof. unfold _get_l_system. apply outer_loop_spec. Qed.

(** ** Properties of one generation *)

Lemma rewrite_generation_app (R : gmap string string) (s t : string) :
  rewrite_generation R (s +:+ t) = rewrite_generation R s +:+ rewrite_generation R t.
Proof.
  induction s as [|c s IH]; [done|].
  rewrite append_cons. cbn [rewrite_generation].
  destruct (R !! String c "") as [r|].
  - by rewrite IH, append_assoc.
  - by rewrite IH.
Qed.

Lemma expand_spec_app (R : gmap string string) (n : nat) (s t : string) :
  expand_spec (s +:+ t) R n = expand_spec s R n +:+ expand_spec t R n.
Proof.
  induction n as [|n IH]; [done|].
  cbn [expand_spec]. by rewrite IH, rewrite_generation_app.
Qed.

Lemma rewrite_generation_length (R : gmap string string) (s : string) :
  String.length (rewrite_generation R s) = growth_sum R s.
Proof.
  induction s as [|c s IH]; [done|].
  cbn [rewrite_generation growth_sum]. unfold symbol_growth.
  destruct (R !! String c "") as [r|].
  - by rewrite length_append, IH.
  - cbn [String.length]. by rewrite IH.
Qed.

Lemma rewrite_generation_ext (R R' : gmap string string) (s : string) :
  (forall c : ascii, R !! String c "" = R' !! String c "") ->
  rewrite_generation R s = rewrite_generation R' s.
Proof.
  intros Hext. induction s as [|c s IH]; [done|].
  cbn [rewrite_generation]. by rewrite Hext, IH.
Qed.

Lemma expand_spec_ext (R R' : gmap string string) (n : nat) (A : string) :
  (forall c : ascii, R !! String c "" = R' !! String c "") ->
  expand_spec A R n = expand_spec A R' n.
Proof.
  intros Hext. induction n as [|n IH]; [done|].
  cbn [expand_spec]. rewrite IH. by apply rewrite_generation_ext.
Qed.

Lemma single_symbol_rules_lookup (rules : gmap string string) (c : ascii) :
  single_symbol_rules rules !! String c "" = rules !! String c "".
Proof.
  unfold single_symbol_rules. apply option_eq. intros r.
  rewrite map_lookup_filter_Some. cbn. tauto.
Qed.

Lemma expand_spec_unkeyed (R : gmap string string) (c : ascii) (n : nat) :
  R !! String c "" = None -> expand_spec (String c "") R n = String c "".
Proof.
  intros Hc. induction n as [|n IH]; [done|].
  cbn [expand_spec]. rewrite IH. cbn [rewrite_generation]. by rewrite Hc.
Qed.

(** ** The expander's claims *)

(** C1. [_get_l_system] run for [n] generations is the [n]-fold iteration on
    the axiom of the one-generation rewrite (left to right, [R[s]] for a key
    [s], the symbol itself otherwise): generation [n+1] rewrites the output
    of generation [n], and zero generations return the axiom. *)
Theorem get_l_system_iterates_generation
    (A : string) (R : gmap string string) (n : nat) :
  _get_l_system A R (Z.of_nat n) = expand_spec A R n
  /\ _get_l_system A R (Z.of_nat n + 1)
     = rewrite_generation R (_get_l_system A R (Z.of_nat n))
  /\ _get_l_system A R 0 = A.
Proof.
  split; [apply get_l_system_nat|split; [|done]].
  replace (Z.of_nat n + 1) with (Z.of_nat (S n)) by lia.
  by rewrite !get_l_system_nat.
Qed.

(** C6. Growth law: the length of generation [n+1] is the sum, over the
    symbols [s] of generation [n], of the length of [R[s]] when [s] is a key
    of [R] and of 1 otherwise. *)
Theorem get_l_system_growth_law
    (A : string) (R : gmap string string) (n : nat) :
  String.length (_get_l_system A R (Z.of_nat n + 1))
  = growth_sum R (_get_l_system A R (Z.of_nat n)).
Proof.
  replace (Z.of_nat n + 1) with (Z.of_nat (S n)) by lia.
  rewrite !get_l_system_nat. cbn [expand_spec].
  apply rewrite_generation_length.
Qed.

(** C10. Expansion distributes over concatenation: expanding [A ++ B] gives
    the expansion of [A] followed by the expansion of [B], for every rule
    mapping and every iteration count. *)
Theorem get_l_system_app
    (A B : string) (R : gmap string string) (iterations : Z) :
  _get_l_system (A +:+ B) R iterations
  = _get_l_system A R iterations +:+ _get_l_system B R iterations.
Proof. rewrite !get_l_system_to_nat. apply expand_spec_app. Qed.

(** C7, as the code has it. The expander validates nothing: a key that is
    not exactly one symbol is never asked for, so the expansion is the one
    of the mapping restricted to its single-symbol keys, and it is returned
    as normal output. *)
Theorem get_l_system_ignores_malformed_keys
    (axiom : string) (rules : gmap string string) (iterations : Z) :
  _get_l_system axiom rules iterations
  = _get_l_system axiom (single_symbol_rules rules) iterations.
Proof.
  rewrite !get_l_system_to_nat. apply expand_spec_ext.
  intros c. by rewrite single_symbol_rules_lookup.
Qed.

(** ** Counting and prefixes *)

Lemma count_symbol_app (c : ascii) (s t : string) :
  count_symbol c (s +:+ t) = (count_symbol c s + count_symbol c t)%nat.
Proof.
  induction s as [|c' s IH]; [done|].
  rewrite append_cons. cbn [count_symbol]. rewrite IH. lia.
Qed.

Lemma prefixes_spec (s p : string) :
  p ∈ prefixes s <-> exists t, s = p +:+ t.
Proof.
  revert p. induction s as [|c s IH]; intros p; cbn [prefixes].
  - rewrite list_elem_of_singleton. split.
    + intros ->. by exists "".
    + intros [t Ht]. by destruct p.
  - rewrite elem_of_cons, list_elem_of_fmap. split.
    + intros [->|(q & -> & Hq)]; [by eexists|].
      apply IH in Hq as [t ->]. by exists t.
    + intros [t Ht]. destruct p as [|c' p]; [by left|right].
      rewrite append_cons in Ht. injection Ht as -> ->.
      exists p. split; [done|]. apply IH. by exists t.
Qed.

Lemma forallb_fmap {A B : Type} (f : B -> bool) (g : A -> B) (l : list A) :
  forallb f (map g l) = forallb (fun a => f (g a)) l.
Proof. induction l as [|a l IH]; [done|]. cbn. by rewrite IH. Qed.

Lemma forallb_pointwise {A : Type} (f g : A -> bool) (l : list A) :
  (forall a, f a = g a) -> forallb f l = forallb g l.
Proof. intros Hfg. induction l as [|a l IH]; [done|]. cbn. by rewrite Hfg, IH. Qed.

Lemma prefixes_head (s : string) : exists l, prefixes s = "" :: l.
Proof. destruct s; cbn [prefixes]; eauto. Qed.

(** How the bracket check moves along the string: a closing bracket needs a
    saved state and uses it up, an opening one adds a state, any other
    symbol leaves the depth alone. *)
Lemma pops_matched_from_cons (depth : nat) (c : ascii) (s : string) :
  pops_matched_from depth (String c s) =
  if Ascii.eqb c "]" then
    match depth with
    | O => false
    | S depth' => pops_matched_from depth' s
    end
  else if Ascii.eqb c "[" then pops_matched_from (S depth) s
  else pops_matched_from depth s.
Proof.
  unfold pops_matched_from. cbn [prefixes forallb count_symbol].
  rewrite forallb_fmap. cbn [count_symbol Nat.leb andb].
  destruct (Ascii.eqb_spec c "]") as [->|Hclose].
  - cbn [Ascii.eqb Bool.eqb Nat.add]. destruct depth as [|depth'].
    + destruct (prefixes_head s) as [l ->]. done.
    + apply forallb_pointwise. intros p.
      destruct (Nat.leb_spec (S (count_symbol "]" p)) (S depth' + count_symbol "[" p));
        destruct (Nat.leb_spec (count_symbol "]" p) (depth' + count_symbol "[" p));
        done || lia.
  - destruct (Ascii.eqb_spec c "[") as [->|Hopen]; apply forallb_pointwise; intros p.
    + f_equal. lia.
    + done.
Qed.

(** ** The turtle loop *)

Section TurtleFacts.

Context {N : Numeric}.
Variables (angle len : num) (color : string) (lw : Z).

Local Abbreviation step := (exec angle len color lw).
Local Abbreviation run := (interpret angle len color lw).

Lemma interpret_cons (c : ascii) (s : string) (t : turtle) :
  run (String c s) t =
  match step c t with
  | Returns t' => run s t'
  | Raises e => Raises e
  end.
Proof. done. Qed.

Lemma interpret_app (s1 s2 : string) (t : turtle) :
  run (s1 +:+ s2) t =
  match run s1 t with
  | Returns t' => run s2 t'
  | Raises e => Raises e
  end.
Proof.
  revert t. induction s1 as [|c s1 IH]; intros t; [done|].
  rewrite append_cons, !interpret_cons. destruct (step c t); [apply IH|done].
Qed.

Lemma interpret_app_returns (s1 s2 : string) (t t2 : turtle) :
  run (s1 +:+ s2) t = Returns t2 ->
  exists t1, run s1 t = Returns t1 /\ run s2 t1 = Returns t2.
Proof.
  rewrite interpret_app. destruct (run s1 t) as [t1|e]; [eauto|done].
Qed.

(** What one instruction does to the plotted lines: [F] adds its line at the
    end, every other instruction leaves them as they are. *)
Lemma exec_lines (c : ascii) (t t' : turtle) :
  step c t = Returns t' ->
  ax_lines t' =
  ax_lines t ++
  (if Ascii.eqb c "F" then [ax_plot (turtle_pos t) (new_pos len t) color lw] else []).
Proof.
  unfold exec.
  destruct (Ascii.eqb c "F"); [by intros [= <-]|].
  rewrite app_nil_r.
  repeat (match goal with |- context [Ascii.eqb c ?k] => destruct (Ascii.eqb c k) end;
          [by intros [= <-]|]).
  destruct (Ascii.eqb c "]"); [|by intros [= <-]].
  destruct (stack t) as [|[p h] below]; [done|by intros [= <-]].
Qed.

Lemma interpret_lines (s : string) (t t' : turtle) :
  run s t = Returns t' ->
  exists segs, ax_lines t' = ax_lines t ++ segs
               /\ List.length segs = count_symbol "F" s.
Proof.
  revert t. induction s as [|c s IH]; intros t.
  - intros [= <-]. exists []. by rewrite app_nil_r.
  - rewrite interpret_cons. destruct (step c t) as [t1|e] eqn:Hexec; [|done].
    intros Hrest. apply IH in Hrest as (segs & Hsegs & Hlen).
    apply exec_lines in Hexec. rewrite Hsegs, Hexec, <- app_assoc.
    eexists. split; [done|]. rewrite length_app, Hlen. cbn [count_symbol].
    by destruct (Ascii.eqb c "F").
Qed.

(** The line of the [F] that follows the prefix [pre] stands at the index
    that counts the [F]s of [pre]. *)
Lemma interpret_line_of_F (pre post : string) (t t1 t' : turtle) :
  run pre t = Returns t1 ->
  run (pre +:+ String "F" post) t = Returns t' ->
  ax_lines t' !! (List.length (ax_lines t) + count_symbol "F" pre)%nat
  = Some (ax_plot (turtle_pos t1) (new_pos len t1) color lw).
Proof.
  intros Hpre. rewrite interpret_app, Hpre, interpret_cons.
  change (step "F" t1) with
    (Returns {| turtle_pos := new_pos len t1;
                turtle_heading := turtle_heading t1;
                stack := stack t1;
                ax_lines := ax_lines t1
                  ++ [ax_plot (turtle_pos t1) (new_pos len t1) color lw] |}).
  intros Hpost. apply interpret_lines in Hpost as (after & -> & _).
  apply interpret_lines in Hpre as (before & -> & Hbefore). cbn [ax_lines].
  rewrite <- Hbefore, <- length_app, <- app_assoc.
  by rewrite lookup_app_r, Nat.sub_diag by lia.
Qed.

(** A saved state is used up by its closing bracket; states below the entry
    depth are never touched. *)
Lemma interpret_pops_matched (s : string) (t : turtle) (top base : list (vec * vec)) :
  stack t = top ++ base ->
  pops_matched_from (List.length top) s = true ->
  exists t' top',
    run s t = Returns t'
    /\ stack t' = top' ++ base
    /\ (List.length top' + count_symbol "]" s
        = List.length top + count_symbol "[" s)%nat.
Proof.
  revert t top. induction s as [|c s IH]; intros t top Hstack Hok.
  - exists t, top. by rewrite Hstack.
  - rewrite pops_matched_from_cons in Hok. rewrite interpret_cons.
    cbn [count_symbol]. unfold exec.
    destruct (Ascii.eqb_spec c "]") as [->|Hclose].
    + cbn [Ascii.eqb Bool.eqb]. destruct top as [|[p h] top]; [done|].
      rewrite Hstack. cbn [app List.length] in *.
      lazymatch goal with
      | |- context [run s ?t1] =>
          destruct (IH t1 top eq_refl Hok) as (t' & top' & Hrun & Hst & Hcount)
      end.
      exists t', top'. rewrite Hrun. split_and!; [done|done|lia].
    + destruct (Ascii.eqb_spec c "[") as [->|Hopen].
      * cbn [Ascii.eqb Bool.eqb].
        lazymatch goal with
        | |- context [run s ?t1] =>
            destruct (IH t1 ((turtle_pos t, turtle_heading t) :: top))
              as (t' & top' & Hrun & Hst & Hcount);
              [cbn [stack]; by rewrite Hstack|exact Hok|]
        end.
        exists t', top'. rewrite Hrun. split_and!; [done|done|].
        cbn [List.length] in Hcount. lia.
      * destruct (Ascii.eqb c "F"); [|destruct (Ascii.eqb c "b");
          [|destruct (Ascii.eqb c "+"); [|destruct (Ascii.eqb c "-")]]];
          (lazymatch goal with
           | |- context [run s ?t1] =>
               destruct (IH t1 top Hstack Hok) as (t' & top' & Hrun & Hst & Hcount)
           end;
           exists t', top'; rewrite Hrun; split_and!; [done|done|lia]).
Qed.

End TurtleFacts.

(** The bracket check in the words of its reading: no prefix holds more
    closing than opening brackets. *)
Lemma pops_matched_spec (s : string) :
  pops_matched s = true <->
  forall p t, s = p +:+ t -> (count_symbol "]" p <= count_symbol "[" p)%nat.
Proof.
  unfold pops_matched, pops_matched_from. rewrite forallb_forall. split.
  - intros Hall p t Hs. apply Nat.leb_le, (Hall p), list_elem_of_In, prefixes_spec.
    by exists t.
  - intros Hall p [t Ht]%list_elem_of_In%prefixes_spec.
    apply Nat.leb_le, (Hall p t Ht).
Qed.

(** ** The interpreter's claims *)

Section TurtleClaims.

Context {N : Numeric}.
Variables (angle len : num) (color : string) (lw : Z).

Local Abbreviation step := (exec angle len color lw).
Local Abbreviation run := (interpret angle len color lw).
Local Abbreviation draw :=
  (fun axiom rules iterations =>
     draw_l_system axiom rules iterations angle len color lw).

Lemma draw_returns (axiom : string) (rules : gmap string string)
    (iterations : Z) (fig : list Line2D) :
  draw axiom rules iterations = Returns fig ->
  exists t, run (_get_l_system axiom rules iterations) initial_turtle = Returns t
            /\ fig = ax_lines t.
Proof.
  unfold draw_l_system.
  destruct (run (_get_l_system axiom rules iterations) initial_turtle) as [t|e];
    [|done].
  intros [= <-]. by exists t.
Qed.

(** C2, as the code has it. When the interpretation returns (no closing
    bracket met an empty stack), the figure holds exactly one line per [F]
    of the expanded instruction sequence, and the line of each [F] stands at
    the index that counts the [F]s before it: it runs from the turtle's
    position after the instructions before that [F] to one step further.
    Instruction by instruction, [F] appends its line and every other
    instruction leaves the lines as they are. *)
Theorem draw_l_system_one_line_per_F (axiom : string)
    (rules : gmap string string) (iterations : Z) (fig : list Line2D) :
  draw_l_system axiom rules iterations angle len color lw = Returns fig ->
  List.length fig = count_symbol "F" (_get_l_system axiom rules iterations)
  /\ (forall pre post,
        _get_l_system axiom rules iterations = pre +:+ String "F" post ->
        exists t,
          interpret angle len color lw pre initial_turtle = Returns t
          /\ fig !! count_symbol "F" pre
             = Some (ax_plot (turtle_pos t) (new_pos len t) color lw))
  /\ (forall c t t',
        exec angle len color lw c t = Returns t' ->
        ax_lines t' =
        ax_lines t ++
        (if Ascii.eqb c "F"
         then [ax_plot (turtle_pos t) (new_pos len t) color lw] else [])).
Proof.
  intros (t' & Hrun & ->)%draw_returns. split_and!.
  - apply interpret_lines in Hrun as (segs & -> & Hlen). done.
  - intros pre post Hsplit. rewrite Hsplit in Hrun.
    destruct (interpret_app_returns _ _ _ _ _ _ _ _ Hrun) as (t & Hpre & _).
    exists t. split; [done|].
    apply (interpret_line_of_F _ _ _ _ pre post initial_turtle t t' Hpre Hrun).
  - apply exec_lines.
Qed.

(** C3. A closing bracket met with an empty stack makes the whole call raise
    [IndexError]: the caller gets the exception and no figure, so no
    segment. The one-symbol sequence of a closing bracket is the first
    case. *)
Theorem draw_l_system_pop_on_empty_stack :
  (forall axiom rules iterations pre post t,
      _get_l_system axiom rules iterations = pre +:+ String "]" post ->
      interpret angle len color lw pre initial_turtle = Returns t ->
      stack t = [] ->
      draw_l_system axiom rules iterations angle len color lw = Raises IndexError
      /\ segments_of (draw_l_system axiom rules iterations angle len color lw) = [])
  /\ draw_l_system "]" ∅ 0 angle len color lw = Raises IndexError
  /\ segments_of (draw_l_system "]" ∅ 0 angle len color lw) = [].
Proof.
  split; [|done].
  intros axiom rules iterations pre post t Hsplit Hpre Hempty.
  assert (draw axiom rules iterations = Raises IndexError) as ->; [|done].
  unfold draw_l_system.
  rewrite Hsplit, interpret_app, Hpre, interpret_cons.
  unfold exec. cbn [Ascii.eqb Bool.eqb]. by rewrite Hempty.
Qed.

(** C5. A closing bracket puts back the position and the heading of the
    most recently saved pair and takes that pair off the stack; around a
    balanced body, an opening bracket and its closing one leave position,
    heading and stack as they were before the opening one. On the sequence
    F[+F]F, for every angle and step length, the figure has exactly three
    segments and the third starts where the first ends. *)
Theorem pop_restores_pushed_state :
  (forall t saved_pos saved_heading below,
      stack t = (saved_pos, saved_heading) :: below ->
      exec angle len color lw "]" t
      = Returns {| turtle_pos := saved_pos;
                   turtle_heading := saved_heading;
                   stack := below;
                   ax_lines := ax_lines t |})
  /\ (forall body t,
        balanced body = true ->
        exists t',
          interpret angle len color lw (String "[" body +:+ "]") t = Returns t'
          /\ turtle_pos t' = turtle_pos t
          /\ turtle_heading t' = turtle_heading t
          /\ stack t' = stack t)
  /\ (exists s1 s2 s3,
        draw_l_system "F[+F]F" ∅ 0 angle len color lw = Returns [s1; s2; s3]
        /\ seg_start s3 = seg_end s1).
Proof.
  split_and!.
  - intros t p h below Hstack. unfold exec. cbn [Ascii.eqb Bool.eqb].
    by rewrite Hstack.
  - intros body t [Hok Hcount%Nat.eqb_eq]%andb_prop.
    rewrite interpret_app, interpret_cons.
    unfold exec at 1. cbn [Ascii.eqb Bool.eqb].
    lazymatch goal with
    | |- context [run body ?t1] =>
        destruct (interpret_pops_matched angle len color lw body t1 []
                    ((turtle_pos t, turtle_heading t) :: stack t) eq_refl Hok)
          as (t2 & top & Hrun & Hstack & Hlen)
    end.
    rewrite Hrun. cbn [List.length] in Hlen.
    destruct top as [|? top]; [|cbn [List.length] in Hlen; lia].
    cbn [app] in Hstack. rewrite interpret_cons.
    unfold exec. cbn [Ascii.eqb Bool.eqb]. rewrite Hstack.
    eexists. split; [done|]. done.
  - by eexists _, _, _.
Qed.

(** C9. An instruction sequence none of whose prefixes holds more closing
    than opening brackets is interpreted to the end: the call returns its
    figure, and the states that were saved and never restored are what is
    left on the stack. *)
Theorem unmatched_push_is_permitted (axiom : string)
    (rules : gmap string string) (iterations : Z) :
  pops_matched (_get_l_system axiom rules iterations) = true ->
  exists t,
    interpret angle len color lw (_get_l_system axiom rules iterations)
      initial_turtle = Returns t
    /\ draw_l_system axiom rules iterations angle len color lw
       = Returns (ax_lines t)
    /\ (List.length (stack t)
        + count_symbol "]" (_get_l_system axiom rules iterations)
        = count_symbol "[" (_get_l_system axiom rules iterations))%nat.
Proof.
  intros Hok.
  destruct (interpret_pops_matched angle len color lw _ initial_turtle [] []
              eq_refl Hok) as (t & top & Hrun & Hstack & Hlen).
  exists t. unfold draw_l_system. rewrite Hrun. split_and!; [done|done|].
  rewrite Hstack, app_nil_r. exact Hlen.
Qed.

End TurtleClaims.

Section UnknownSymbols.

Context {N : Numeric}.

Lemma exec_unknown (angle len : num) (color : string) (lw : Z)
    (c : ascii) (t : turtle) :
  is_command c = false -> exec angle len color lw c t = Returns t.
Proof.
  unfold is_command, exec. intros Hc.
  repeat (apply orb_false_elim in Hc as [Hc ?]).
  by repeat match goal with H : Ascii.eqb c _ = false |- _ => rewrite H; clear H end.
Qed.

(** C8. A symbol that is not a key of the rules is kept as it is by every
    generation of the expansion, wherever it stands; a symbol outside the
    command set is skipped by the interpreter, which leaves position,
    heading, stack and plotted lines as they were, so that the sequence is
    interpreted as if the symbol were not there. *)
Theorem unknown_symbol_passes_through (c : ascii) (rules : gmap string string)
    (angle len : num) (color : string) (lw : Z) :
  is_command c = false ->
  rules !! String c "" = None ->
  (forall pre post iterations,
      _get_l_system (pre +:+ String c post) rules iterations
      = _get_l_system pre rules iterations
        +:+ String c (_get_l_system post rules iterations))
  /\ (forall t, exec angle len color lw c t = Returns t)
  /\ (forall pre post t,
        interpret angle len color lw (pre +:+ String c post) t
        = interpret angle len color lw (pre +:+ post) t).
Proof.
  intros Hcmd Hkey. split_and!.
  - intros pre post iterations.
    change (String c post) with (String c "" +:+ post).
    rewrite !get_l_system_to_nat, !expand_spec_app.
    by rewrite expand_spec_unkeyed.
  - intros t. by apply exec_unknown.
  - intros pre post t. rewrite !interpret_app.
    destruct (interpret angle len color lw pre t) as [t1|e]; [|done].
    by rewrite interpret_cons, exec_unknown.
Qed.

End UnknownSymbols.

(** ** Exact arithmetic: the rotation *)



(** ** Scenarios *)

Example scenario_koch_generation :
  _get_l_system "F++F++F" {["F" := "F-F++F-F"]} 1
  = "F-F++F-F++F-F++F-F++F-F++F-F".
Proof. vm_compute. reflexivity. Qed.

Example scenario_no_rule :
  _get_l_system "F" ∅ 5 = "F".
Proof. vm_compute. reflexivity. Qed.

Example scenario_empty_instructions :
  draw_l_system (N := exact_arithmetic) "" ∅ 0 90%R 1%R "tab:orange" 1
  = Returns [].
Proof. reflexivity. Qed.

Example scenario_branch_at_right_angle :
  exists s1 s2 s3,
    draw_l_system (N := exact_arithmetic) "F[+F]F" ∅ 0 90%R 1%R "tab:orange" 1
    = Returns [s1; s2; s3]
    /\ seg_start s3 = seg_end s1.
Proof. by eexists _, _, _. Qed.

(** ** Instances of the claims, in exact arithmetic *)

(** C2, as worded, fails where the interpretation raises: on the sequence of
    a closing bracket followed by [F] the call raises [IndexError] before
    the [F] is reached, so no segment comes out although the sequence holds
    one [F]. *)
Lemma one_line_per_F_fails_on_underflow :
  draw_l_system (N := exact_arithmetic) "]F" ∅ 0 90%R 1%R "tab:orange" 1
  = Raises IndexError
  /\ List.length
       (segments_of
          (draw_l_system (N := exact_arithmetic) "]F" ∅ 0 90%R 1%R "tab:orange" 1))
     ≠ count_symbol "F" (_get_l_system "]F" ∅ 0).
Proof. split; [reflexivity|]. lazy. discriminate. Qed.

(** The count of C2 on a sequence that is interpreted to the end. *)
Lemma draw_l_system_one_line_per_F_witness :
  List.length
    (segments_of
       (draw_l_system (N := exact_arithmetic) "F+bF" ∅ 0 90%R 1%R "tab:orange" 1))
  = count_symbol "F" (_get_l_system "F+bF" ∅ 0).
Proof.
  exact (proj1 (draw_l_system_one_line_per_F (N := exact_arithmetic)
                  90%R 1%R "tab:orange" 1 "F+bF" ∅ 0 _ eq_refl)).
Defined.

(** C3 where the stack has been filled and emptied before the closing
    bracket that finds it empty. *)
Lemma draw_l_system_pop_on_empty_stack_witness :
  draw_l_system (N := exact_arithmetic) "F[]]F" ∅ 0 90%R 1%R "tab:orange" 1
  = Raises IndexError
  /\ segments_of
       (draw_l_system (N := exact_arithmetic) "F[]]F" ∅ 0 90%R 1%R "tab:orange" 1)
     = [].
Proof.
  exact (proj1 (draw_l_system_pop_on_empty_stack (N := exact_arithmetic)
                  90%R 1%R "tab:orange" 1)
           "F[]]F" ∅ 0 "F[]" "F" _ eq_refl eq_refl eq_refl).
Defined.

(** C5 around a body with a nested pair of brackets. *)
Lemma pop_restores_pushed_state_witness :
  balanced "+F[-F]b" = true
  /\ exists t',
       interpret (N := exact_arithmetic) 90%R 1%R "tab:orange" 1
         (String "[" "+F[-F]b" +:+ "]") initial_turtle = Returns t'
       /\ turtle_pos t' = turtle_pos initial_turtle
       /\ turtle_heading t' = turtle_heading initial_turtle
       /\ stack t' = stack initial_turtle.
Proof.
  split; [reflexivity|].
  apply (proj1 (proj2 (pop_restores_pushed_state (N := exact_arithmetic)
                         90%R 1%R "tab:orange" 1))).
  reflexivity.
Defined.

(** C8 for the symbol X, which is no command and has no rule here. *)
Lemma unknown_symbol_passes_through_witness :
  is_command "X" = false
  /\ ({["F" := "FXF"]} : gmap string string) !! "X" = None
  /\ _get_l_system "FXF" {["F" := "FXF"]} 1
     = _get_l_system "F" {["F" := "FXF"]} 1
       +:+ String "X" (_get_l_system "F" {["F" := "FXF"]} 1)
  /\ interpret (N := exact_arithmetic) 90%R 1%R "tab:orange" 1 "FXF" initial_turtle
     = interpret (N := exact_arithmetic) 90%R 1%R "tab:orange" 1 "FF" initial_turtle.
Proof.
  assert (is_command "X" = false) as Hcmd by reflexivity.
  assert (({["F" := "FXF"]} : gmap string string) !! "X" = None) as Hkey
    by (vm_compute; reflexivity).
  destruct (unknown_symbol_passes_through (N := exact_arithmetic)
              "X" {["F" := "FXF"]} 90%R 1%R "tab:orange" 1 Hcmd Hkey)
    as (Hexpand & _ & Hskip).
  split_and!; [exact Hcmd|exact Hkey|exact (Hexpand "F" "F" 1)
              |exact (Hskip "F" "F" initial_turtle)].
Defined.

(** C9 on the second generation of a rule that opens a bracket and never
    closes it. *)
Lemma unmatched_push_is_permitted_witness :
  pops_matched (_get_l_system "F" {["F" := "F[+F"]} 2) = true
  /\ exists t,
       interpret (N := exact_arithmetic) 90%R 1%R "tab:orange" 1
         (_get_l_system "F" {["F" := "F[+F"]} 2) initial_turtle = Returns t
       /\ draw_l_system (N := exact_arithmetic) "F" {["F" := "F[+F"]} 2
            90%R 1%R "tab:orange" 1 = Returns (ax_lines t)
       /\ (List.length (stack t)
           + count_symbol "]" (_get_l_system "F" {["F" := "F[+F"]} 2)
           = count_symbol "[" (_get_l_system "F" {["F" := "F[+F"]} 2))%nat.
Proof.
  assert (pops_matched (_get_l_system "F" {["F" := "F[+F"]} 2) = true) as Hok
    by (vm_compute; reflexivity).
  split; [exact Hok|].
  exact (unmatched_push_is_permitted (N := exact_arithmetic)
           90%R 1%R "tab:orange" 1 "F" {["F" := "F[+F"]} 2 Hok).
Defined.

(** C7, as worded, fails: with a two-symbol key in the rules the expansion
    and the whole call return as usual, and the key is never used. *)
Lemma malformed_key_is_not_rejected :
  single_symbol "FF" = false
  /\ ({["FF" := "X"]} : gmap string string) !! "FF" = Some "X"
  /\ _get_l_system "FF" {["FF" := "X"]} 1 = "FF"
  /\ exists s1 s2,
       draw_l_system (N := exact_arithmetic) "FF" {["FF" := "X"]} 1
         90%R 1%R "tab:orange" 1 = Returns [s1; s2].
Proof.
  split_and!; [reflexivity|vm_compute; reflexivity|vm_compute; reflexivity|].
  unfold draw_l_system.
  replace (_get_l_system "FF" {["FF" := "X"]} 1) with "FF"
    by (vm_compute; reflexivity).
  by eexists _, _.
Qed.

(** ** Further properties of the expander *)

Lemma expand_spec_add (A : string) (R : gmap string string) (m n : nat) :
  expand_spec A R (m + n) = expand_spec (expand_spec A R m) R n.
Proof.
  induction n as [|n IH].
  - by rewrite Nat.add_0_r.
  - rewrite Nat.add_succ_r. cbn [expand_spec]. by rewrite IH.
Qed.

Lemma rewrite_generation_fixed (R : gmap string string) (s : string) :
  has_rule R s = false -> rewrite_generation R s = s.
Proof.
  induction s as [|c s IH]; [done|].
  cbn [has_rule rewrite_generation]. intros [Hc Hs]%orb_false_elim.
  apply bool_decide_eq_false in Hc. rewrite IH by done.
  destruct (R !! String c "") as [r|]; [|done]. destruct Hc. by eexists.
Qed.

Lemma expand_spec_fixed (R : gmap string string) (s : string) (n : nat) :
  has_rule R s = false -> expand_spec s R n = s.
Proof.
  intros Hs. induction n as [|n IH]; [done|].
  cbn [expand_spec]. rewrite IH. by apply rewrite_generation_fixed.
Qed.

Lemma symbol_growth_bounds (R : gmap string string) (L : nat) (c : ascii) :
  (1 <= L)%nat ->
  map_Forall (fun _ r => (1 <= String.length r <= L)%nat) R ->
  (1 <= symbol_growth R c <= L)%nat.
Proof.
  intros HL Hall. unfold symbol_growth.
  destruct (R !! String c "") as [r|] eqn:Hr; [|lia].
  exact (Hall _ _ Hr).
Qed.

Lemma growth_sum_bounds (R : gmap string string) (L : nat) (s : string) :
  (1 <= L)%nat ->
  map_Forall (fun _ r => (1 <= String.length r <= L)%nat) R ->
  (String.length s <= growth_sum R s <= String.length s * L)%nat.
Proof.
  intros HL Hall. induction s as [|c s IH]; [cbn; lia|].
  cbn [growth_sum String.length].
  pose proof (symbol_growth_bounds R L c HL Hall). lia.
Qed.

Lemma expand_spec_length_bounds (A : string) (R : gmap string string)
    (L n : nat) :
  (1 <= L)%nat ->
  map_Forall (fun _ r => (1 <= String.length r <= L)%nat) R ->
  (String.length A <= String.length (expand_spec A R n)
   <= String.length A * L ^ n)%nat.
Proof.
  intros HL Hall. induction n as [|n IH]; [cbn; lia|].
  cbn [expand_spec]. rewrite rewrite_generation_length.
  pose proof (growth_sum_bounds R L (expand_spec A R n) HL Hall) as Hstep.
  rewrite Nat.pow_succ_r'. nia.
Qed.

Lemma rewrite_generation_count_F (R : gmap string string) (rF s : string) :
  R !! "F" = Some rF ->
  map_Forall (fun k r => k = "F" \/ count_symbol "F" r = 0%nat) R ->
  count_symbol "F" (rewrite_generation R s)
  = (count_symbol "F" s * count_symbol "F" rF)%nat.
Proof.
  intros HF Hall. induction s as [|c s IH]; [done|].
  cbn [rewrite_generation count_symbol].
  destruct (Ascii.eqb_spec c "F") as [->|Hc].
  - rewrite HF, count_symbol_app, IH. lia.
  - destruct (R !! String c "") as [r|] eqn:Hr.
    + rewrite count_symbol_app, IH.
      destruct (Hall _ _ Hr) as [[= ->]| ->]; [done|lia].
    + cbn [count_symbol]. rewrite IH.
      destruct (Ascii.eqb_spec c "F"); [done|lia].
Qed.

Lemma expand_spec_count_F (A : string) (R : gmap string string)
    (rF : string) (n : nat) :
  R !! "F" = Some rF ->
  map_Forall (fun k r => k = "F" \/ count_symbol "F" r = 0%nat) R ->
  count_symbol "F" (expand_spec A R n)
  = (count_symbol "F" A * count_symbol "F" rF ^ n)%nat.
Proof.
  intros HF Hall. induction n as [|n IH]; [cbn; lia|].
  cbn [expand_spec]. rewrite (rewrite_generation_count_F R rF) by done.
  rewrite IH, Nat.pow_succ_r'. lia.
Qed.

(** X1. Generations add up: expanding the result of [m] iterations for [n]
    more is expanding the axiom for [m + n], when neither count is
    negative. *)
Theorem get_l_system_compose (A : string) (R : gmap string string) (m n : Z) :
  0 <= m -> 0 <= n ->
  _get_l_system (_get_l_system A R m) R n = _get_l_system A R (m + n).
Proof.
  intros Hm Hn. rewrite !get_l_system_to_nat.
  by rewrite Z2Nat.inj_add, expand_spec_add by done.
Qed.

Lemma has_rule_empty (A : string) : has_rule ∅ A = false.
Proof.
  induction A as [|c A IH]; [done|].
  cbn [has_rule]. rewrite IH, lookup_empty, orb_false_r.
  apply bool_decide_eq_false. by intros [? [=]].
Qed.

(** X2. A string none of whose symbols has a rule is returned as it is,
    whatever the iteration count; so is every axiom under the empty rules,
    and the empty axiom under every rules. *)
Theorem get_l_system_without_rule :
  (forall A R iterations,
      has_rule R A = false -> _get_l_system A R iterations = A)
  /\ (forall A iterations, _get_l_system A ∅ iterations = A)
  /\ (forall R iterations, _get_l_system "" R iterations = "").
Proof.
  split_and!; intros; rewrite get_l_system_to_nat; apply expand_spec_fixed;
    [done|apply has_rule_empty|done].
Qed.

(** X3. When every replacement has at least one and at most [L] symbols, a
    generation is never shorter than the axiom and generation [n] is at most
    [L ^ n] times as long. *)
Theorem get_l_system_length_bounds (A : string) (R : gmap string string)
    (L n : nat) :
  (1 <= L)%nat ->
  map_Forall (fun _ r => (1 <= String.length r <= L)%nat) R ->
  (String.length A <= String.length (_get_l_system A R (Z.of_nat n))
   <= String.length A * L ^ n)%nat.
Proof. rewrite get_l_system_nat. apply expand_spec_length_bounds. Qed.

(** ** Brackets through the expansion *)

Lemma pops_matched_from_mono (s : string) (d k : nat) :
  pops_matched_from d s = true -> pops_matched_from (d + k) s = true.
Proof.
  revert d. induction s as [|c s IH]; intros d; [done|].
  rewrite !pops_matched_from_cons.
  destruct (Ascii.eqb c "]").
  - destruct d as [|d']; [done|]. apply IH.
  - destruct (Ascii.eqb c "["); [apply (IH (S d))|apply IH].
Qed.

(** Past a prefix that passes the check, the check goes on at the depth the
    prefix leaves. *)
Lemma pops_matched_from_app (s t : string) (d : nat) :
  pops_matched_from d s = true ->
  pops_matched_from d (s +:+ t)
  = pops_matched_from (d + count_symbol "[" s - count_symbol "]" s) t.
Proof.
  revert d. induction s as [|c s IH]; intros d.
  - intros _. cbn [count_symbol]. f_equal; lia.
  - rewrite append_cons, !pops_matched_from_cons. cbn [count_symbol].
    destruct (Ascii.eqb_spec c "]") as [->|Hclose].
    + cbn [Ascii.eqb Bool.eqb]. destruct d as [|d']; [done|].
      intros Hs. rewrite (IH _ Hs). f_equal; lia.
    + destruct (Ascii.eqb_spec c "[") as [->|Hopen].
      * cbn [Ascii.eqb Bool.eqb]. intros Hs. rewrite (IH _ Hs). f_equal; lia.
      * destruct (Ascii.eqb_spec c "]"); [done|].
        destruct (Ascii.eqb_spec c "["); [done|].
        intros Hs. rewrite (IH _ Hs). f_equal; lia.
Qed.

Lemma balanced_skip (r t : string) (d : nat) :
  balanced r = true ->
  pops_matched_from d (r +:+ t) = pops_matched_from d t.
Proof.
  intros [Hok Hcount%Nat.eqb_eq]%andb_prop.
  rewrite pops_matched_from_app by apply (pops_matched_from_mono r 0 d Hok).
  f_equal. lia.
Qed.

(** One generation under bracket-safe rules: the bracket check at every
    depth and the surplus of opening brackets are those of the string that
    was rewritten. *)
Lemma rewrite_generation_brackets (R : gmap string string) (s : string) :
  bracket_safe R ->
  (forall d, pops_matched_from d (rewrite_generation R s) = pops_matched_from d s)
  /\ (count_symbol "[" (rewrite_generation R s) + count_symbol "]" s
      = count_symbol "]" (rewrite_generation R s) + count_symbol "[" s)%nat.
Proof.
  intros (Hopen & Hclose & Hall). induction s as [|c s [IHok IHcount]]; [done|].
  cbn [rewrite_generation]. destruct (R !! String c "") as [r|] eqn:Hr.
  - assert (c <> "["%char) as Hc1 by (intros ->; congruence).
    assert (c <> "]"%char) as Hc2 by (intros ->; congruence).
    pose proof (Hall _ _ Hr) as Hbal. cbn beta in Hbal. split.
    + intros d. rewrite balanced_skip, pops_matched_from_cons, IHok by done.
      destruct (Ascii.eqb_spec c "]"); [done|].
      by destruct (Ascii.eqb_spec c "[").
    + apply andb_prop in Hbal as [_ Hcount%Nat.eqb_eq].
      rewrite !count_symbol_app. cbn [count_symbol].
      destruct (Ascii.eqb_spec c "]"); [done|].
      destruct (Ascii.eqb_spec c "["); [done|]. lia.
  - split.
    + intros d. rewrite !pops_matched_from_cons.
      destruct (Ascii.eqb c "]"); [by destruct d|].
      by destruct (Ascii.eqb c "[").
    + cbn [count_symbol]. lia.
Qed.

Lemma expand_spec_brackets (A : string) (R : gmap string string) (n : nat) :
  bracket_safe R ->
  (forall d, pops_matched_from d (expand_spec A R n) = pops_matched_from d A)
  /\ (count_symbol "[" (expand_spec A R n) + count_symbol "]" A
      = count_symbol "]" (expand_spec A R n) + count_symbol "[" A)%nat.
Proof.
  intros Hsafe. induction n as [|n [IHok IHcount]]; [split; [done|cbn; lia]|].
  cbn [expand_spec].
  destruct (rewrite_generation_brackets R (expand_spec A R n) Hsafe)
    as [Hok Hcount].
  split; [intros d; by rewrite Hok, IHok|lia].
Qed.

Lemma expand_spec_balanced (A : string) (R : gmap string string) (n : nat) :
  bracket_safe R ->
  pops_matched (expand_spec A R n) = pops_matched A
  /\ balanced (expand_spec A R n) = balanced A.
Proof.
  intros Hsafe. destruct (expand_spec_brackets A R n Hsafe) as [Hok Hcount].
  unfold balanced, pops_matched. rewrite Hok. split; [done|]. f_equal.
  destruct (Nat.eqb_spec (count_symbol "[" (expand_spec A R n))
              (count_symbol "]" (expand_spec A R n)));
    destruct (Nat.eqb_spec (count_symbol "[" A) (count_symbol "]" A));
    done || lia.
Qed.

(** X4. Under rules that rewrite no bracket and whose replacements are all
    balanced, expansion keeps the bracket structure: a generation passes the
    prefix check exactly when the axiom does, and is balanced exactly when
    the axiom is. *)
Theorem get_l_system_keeps_brackets (A : string) (R : gmap string string)
    (iterations : Z) :
  bracket_safe R ->
  pops_matched (_get_l_system A R iterations) = pops_matched A
  /\ balanced (_get_l_system A R iterations) = balanced A.
Proof. rewrite get_l_system_to_nat. apply expand_spec_balanced. Qed.

(** ** Further properties of the turtle loop *)

Section TurtleMore.

Context {N : Numeric}.
Variables (angle len : num) (color : string) (lw : Z).

Local Abbreviation step := (exec angle len color lw).
Local Abbreviation run := (interpret angle len color lw).

(** A closing bracket too many makes the loop raise, whatever follows. *)
Lemma interpret_underflow (s : string) (t : turtle) :
  pops_matched_from (List.length (stack t)) s = false ->
  run s t = Raises IndexError.
Proof.
  revert t. induction s as [|c s IH]; intros t; [done|].
  rewrite pops_matched_from_cons, interpret_cons. unfold exec.
  destruct (Ascii.eqb_spec c "]") as [->|Hclose].
  - cbn [Ascii.eqb Bool.eqb]. destruct (stack t) as [|[p h] below]; [done|].
    cbn [List.length]. intros Hs. by apply IH.
  - destruct (Ascii.eqb_spec c "[") as [->|Hopen].
    + cbn [Ascii.eqb Bool.eqb]. intros Hs. by apply IH.
    + destruct (Ascii.eqb c "F"); [|destruct (Ascii.eqb c "b");
        [|destruct (Ascii.eqb c "+"); [|destruct (Ascii.eqb c "-")]]];
        intros Hs; by apply IH.
Qed.

Lemma interpret_returns (s : string) (t : turtle) :
  pops_matched_from (List.length (stack t)) s = true ->
  exists t', run s t = Returns t'
             /\ (List.length (stack t') + count_symbol "]" s
                 = List.length (stack t) + count_symbol "[" s)%nat.
Proof.
  intros Hok.
  destruct (interpret_pops_matched angle len color lw s t (stack t) [])
    as (t' & top' & Hrun & Hstack & Hlen); [by rewrite app_nil_r|done|].
  exists t'. split; [done|]. by rewrite Hstack, app_nil_r.
Qed.

(** X5. The call raises [IndexError] exactly when some prefix of the
    expanded instruction sequence holds more closing than opening brackets;
    in every other case it returns its figure. *)
Theorem draw_l_system_raises_iff (axiom : string) (rules : gmap string string)
    (iterations : Z) :
  draw_l_system axiom rules iterations angle len color lw = Raises IndexError
  <-> pops_matched (_get_l_system axiom rules iterations) = false.
Proof.
  unfold draw_l_system, pops_matched.
  destruct (pops_matched_from 0 (_get_l_system axiom rules iterations)) eqn:Hok.
  - destruct (interpret_returns _ initial_turtle Hok) as (t & -> & _). done.
  - by rewrite (interpret_underflow _ initial_turtle Hok).
Qed.

(** The lines that were plotted stay, in their order, and every new one has
    the colour and the width of the call. *)
Lemma interpret_style (s : string) (t t' : turtle) :
  run s t = Returns t' ->
  exists segs,
    ax_lines t' = ax_lines t ++ segs
    /\ Forall (fun l => line_color l = color /\ line_lw l = lw) segs.
Proof.
  revert t. induction s as [|c s IH]; intros t.
  - intros [= <-]. exists []. by rewrite app_nil_r.
  - rewrite interpret_cons. destruct (step c t) as [t1|e] eqn:Hstep; [|done].
    intros (segs & -> & Hsegs)%IH.
    apply exec_lines in Hstep as ->. rewrite <- app_assoc.
    eexists. split; [done|]. apply Forall_app. split; [|done].
    destruct (Ascii.eqb c "F"); by repeat constructor.
Qed.

Lemma chained_snoc (ls : list Line2D) (x : Line2D) :
  chained ls ->
  (forall l, last ls = Some l -> seg_start x = seg_end l) ->
  chained (ls ++ [x]).
Proof.
  intros Hls Hlast i l l' Hl Hl'.
  destruct (decide (S i < List.length ls)%nat) as [Hin|Hout].
  - rewrite lookup_app_l in Hl, Hl' by lia. by apply (Hls i).
  - apply lookup_lt_Some in Hl' as Hlen. rewrite length_app in Hlen.
    cbn [List.length] in Hlen.
    assert (S i = List.length ls) as Hi by lia.
    rewrite lookup_app_l in Hl by lia.
    rewrite lookup_app_r, Hi, Nat.sub_diag in Hl' by lia.
    injection Hl' as <-. apply Hlast.
    rewrite last_lookup, <- Hi. exact Hl.
Qed.

Lemma seg_start_plot (p q : vec) : seg_start (ax_plot p q color lw) = p.
Proof. by destruct p. Qed.

Lemma seg_end_plot (p q : vec) : seg_end (ax_plot p q color lw) = q.
Proof. by destruct q. Qed.

Lemma exec_on_path (origin : vec) (c : ascii) (t : turtle) :
  Ascii.eqb c "b" = false -> Ascii.eqb c "]" = false ->
  on_path origin t ->
  exists t', step c t = Returns t' /\ on_path origin t'.
Proof.
  intros Hb Hclose (Hchain & Hlast & Hfirst). unfold exec. rewrite Hb, Hclose.
  destruct (Ascii.eqb c "F").
  - eexists. split; [done|]. unfold on_path. cbn [ax_lines turtle_pos].
    split_and!.
    + apply chained_snoc; [done|]. intros l Hl. rewrite Hl in Hlast.
      by rewrite Hlast, seg_start_plot.
    + by rewrite last_snoc, seg_end_plot.
    + intros l. destruct (ax_lines t) as [|l0 ls] eqn:Hlines.
      * cbn. intros [= <-]. cbn in Hlast. by rewrite seg_start_plot.
      * cbn. intros [= <-]. by apply Hfirst.
  - destruct (Ascii.eqb c "+"); [|destruct (Ascii.eqb c "-");
      [|destruct (Ascii.eqb c "[")]]; by eexists.
Qed.

Lemma interpret_on_path (origin : vec) (s : string) (t : turtle) :
  count_symbol "b" s = 0%nat -> count_symbol "]" s = 0%nat ->
  on_path origin t ->
  exists t', run s t = Returns t' /\ on_path origin t'.
Proof.
  revert t. induction s as [|c s IH]; intros t; [by eexists|].
  cbn [count_symbol]. intros Hb Hclose Hpath.
  destruct (Ascii.eqb c "b") eqn:Hcb; [done|].
  destruct (Ascii.eqb c "]") eqn:Hcc; [done|].
  destruct (exec_on_path origin c t Hcb Hcc Hpath) as (t1 & Hstep & Hpath1).
  rewrite interpret_cons, Hstep. by apply IH.
Qed.

(** A bracketed block with a balanced body that draws nothing gives the
    turtle back as it was. *)
Lemma interpret_silent_block (body : string) (t : turtle) :
  balanced body = true -> count_symbol "F" body = 0%nat ->
  run (String "[" (body +:+ "]")) t = Returns t.
Proof.
  intros [Hok Hcount%Nat.eqb_eq]%andb_prop HF.
  rewrite interpret_cons. unfold exec at 1. cbn [Ascii.eqb Bool.eqb].
  rewrite interpret_app.
  lazymatch goal with
  | |- context [run body ?t1] =>
      destruct (interpret_pops_matched angle len color lw body t1 []
                  ((turtle_pos t, turtle_heading t) :: stack t) eq_refl Hok)
        as (t2 & top & Hrun & Hstack & Hlen)
  end.
  rewrite Hrun. cbn [List.length] in Hlen.
  destruct top as [|? top]; [|cbn [List.length] in Hlen; lia].
  cbn [app] in Hstack. rewrite interpret_cons.
  unfold exec. cbn [Ascii.eqb Bool.eqb]. rewrite Hstack. cbn [interpret].
  apply interpret_lines in Hrun as (segs & Hlines & Hsegs).
  rewrite HF in Hsegs. destruct segs; [|done].
  rewrite Hlines, app_nil_r. cbn [ax_lines]. by destruct t.
Qed.

End TurtleMore.

Section TurtleExtras.

Context {N : Numeric}.
Variables (angle len : num) (color : string) (lw : Z).

(** X6. With rules that rewrite no bracket and have balanced replacements,
    an axiom that passes the prefix check is drawn without an exception at
    every iteration count, and when the axiom is balanced no saved state is
    left on the stack. *)
Theorem draw_l_system_bracket_safe_returns (axiom : string)
    (rules : gmap string string) (iterations : Z) :
  bracket_safe rules ->
  pops_matched axiom = true ->
  exists t,
    interpret angle len color lw (_get_l_system axiom rules iterations)
      initial_turtle = Returns t
    /\ draw_l_system axiom rules iterations angle len color lw
       = Returns (ax_lines t)
    /\ (balanced axiom = true -> stack t = []).
Proof.
  intros Hsafe Hok. rewrite get_l_system_to_nat.
  destruct (expand_spec_brackets axiom rules (Z.to_nat iterations) Hsafe)
    as [Hcheck Hcount].
  destruct (interpret_returns angle len color lw
              (expand_spec axiom rules (Z.to_nat iterations)) initial_turtle)
    as (t & Hrun & Hdepth); [by rewrite Hcheck|].
  exists t. unfold draw_l_system. rewrite get_l_system_to_nat, Hrun.
  split_and!; [done|done|].
  intros [_ Hbal%Nat.eqb_eq]%andb_prop. cbn [initial_turtle stack List.length] in Hdepth.
  apply length_zero_iff_nil. lia.
Qed.

(** X7. When [F] has a rule and no other replacement holds an [F], the
    number of [F]s is multiplied at each generation by the number of [F]s in
    the replacement of [F]; a figure that is returned has that many
    lines. *)
Theorem draw_l_system_count_F_geometric (axiom : string)
    (rules : gmap string string) (rF : string) (n : nat) :
  rules !! "F" = Some rF ->
  map_Forall (fun k r => k = "F" \/ count_symbol "F" r = 0%nat) rules ->
  count_symbol "F" (_get_l_system axiom rules (Z.of_nat n))
  = (count_symbol "F" axiom * count_symbol "F" rF ^ n)%nat
  /\ (forall fig,
        draw_l_system axiom rules (Z.of_nat n) angle len color lw = Returns fig ->
        List.length fig = (count_symbol "F" axiom * count_symbol "F" rF ^ n)%nat).
Proof.
  intros HF Hall.
  assert (count_symbol "F" (_get_l_system axiom rules (Z.of_nat n))
          = (count_symbol "F" axiom * count_symbol "F" rF ^ n)%nat) as Hcount.
  { rewrite get_l_system_nat. by apply expand_spec_count_F. }
  split; [done|].
  intros fig (t & Hrun & ->)%draw_returns.
  apply interpret_lines in Hrun as (segs & -> & Hlen).
  by rewrite <- Hcount.
Qed.

(** X8. Every line of a returned figure has the colour and the line width
    the call was given. *)
Theorem draw_l_system_style (axiom : string) (rules : gmap string string)
    (iterations : Z) (fig : list Line2D) :
  draw_l_system axiom rules iterations angle len color lw = Returns fig ->
  Forall (fun l => line_color l = color /\ line_lw l = lw) fig.
Proof.
  intros (t & Hrun & ->)%draw_returns.
  by apply interpret_style in Hrun as (segs & -> & Hsegs).
Qed.

(** X9. A sequence that holds no [b] and no closing bracket is drawn as one
    connected path from the origin: the call returns, the first line starts
    at (0, 0) and every other line starts where the line before it ends. *)
Theorem draw_l_system_connected_path (axiom : string)
    (rules : gmap string string) (iterations : Z) :
  count_symbol "b" (_get_l_system axiom rules iterations) = 0%nat ->
  count_symbol "]" (_get_l_system axiom rules iterations) = 0%nat ->
  exists fig,
    draw_l_system axiom rules iterations angle len color lw = Returns fig
    /\ chained fig
    /\ (forall l, fig !! 0%nat = Some l -> seg_start l = (num_zero, num_zero)).
Proof.
  intros Hb Hclose.
  destruct (interpret_on_path angle len color lw (num_zero, num_zero)
              (_get_l_system axiom rules iterations) initial_turtle Hb Hclose)
    as (t & Hrun & Hchain & _ & Hfirst).
  { split_and!; [by intros i l l' [=]|done|by intros l [=]]. }
  exists (ax_lines t). unfold draw_l_system. by rewrite Hrun.
Qed.

(** X10. A bracketed block whose body is balanced and holds no [F] can be
    taken out of the sequence: the interpretation with the block, wherever
    it stands and from every state, is the interpretation without it. *)
Theorem interpret_skips_silent_block (body : string) :
  balanced body = true ->
  count_symbol "F" body = 0%nat ->
  forall pre post t,
    interpret angle len color lw
      (pre +:+ String "[" (body +:+ String "]" post)) t
    = interpret angle len color lw (pre +:+ post) t.
Proof.
  intros Hbal HF pre post t. rewrite !interpret_app.
  destruct (interpret angle len color lw pre t) as [t1|e]; [|done].
  change (String "]" post) with ("]" +:+ post).
  rewrite <- append_assoc, <- append_cons, interpret_app.
  by rewrite interpret_silent_block.
Qed.

End TurtleExtras.

(** ** The rules text: splitting and the dictionary *)

Lemma str_split_nonempty (sep : ascii) (s : string) :
  exists piece pieces, str_split sep s = piece :: pieces.
Proof.
  induction s as [|c s (piece & pieces & IH)]; [by eexists _, _|].
  cbn [str_split]. rewrite IH. destruct (Ascii.eqb c sep); by eexists _, _.
Qed.

Lemma str_split_length (sep : ascii) (s : string) :
  List.length (str_split sep s) = S (count_symbol sep s).
Proof.
  induction s as [|c s IH]; [done|].
  cbn [str_split count_symbol].
  destruct (str_split_nonempty sep s) as (piece & pieces & Hs).
  rewrite Hs in *. destruct (Ascii.eqb c sep); cbn [List.length] in *; lia.
Qed.

Lemma str_split_no_sep (sep : ascii) (s : string) :
  count_symbol sep s = 0%nat -> str_split sep s = [s].
Proof.
  induction s as [|c s IH]; [done|].
  cbn [str_split count_symbol]. destruct (Ascii.eqb c sep); [done|].
  intros Hs. by rewrite IH.
Qed.

Lemma str_split_app (sep : ascii) (a b : string) :
  str_split sep (a +:+ String sep b) = str_split sep a ++ str_split sep b.
Proof.
  induction a as [|c a IH].
  - change ("" +:+ String sep b) with (String sep b). cbn [str_split app].
    by rewrite Ascii.eqb_refl.
  - rewrite append_cons. cbn [str_split]. rewrite IH.
    destruct (Ascii.eqb c sep); [done|].
    by destruct (str_split_nonempty sep a) as (piece & pieces & ->).
Qed.

Lemma str_split_concat (sep : ascii) (l : list string) :
  l <> [] ->
  Forall (fun piece => count_symbol sep piece = 0%nat) l ->
  str_split sep (String.concat (String sep "") l) = l.
Proof.
  intros Hne Hall. induction Hall as [|x l Hx Hl IH]; [done|].
  destruct l as [|y l]; [by apply str_split_no_sep|].
  cbn [String.concat].
  change (String.append (String sep "") ?r) with (String sep r).
  rewrite (str_split_app sep x), str_split_no_sep by done.
  cbn [app]. f_equal. by apply IH.
Qed.

Lemma dict_update_app (items1 items2 : list (list string))
    (d : gmap string string) :
  dict_update (items1 ++ items2) d =
  match dict_update items1 d with
  | Dict d1 => dict_update items2 d1
  | ValueError => ValueError
  end.
Proof.
  revert d. induction items1 as [|item items1 IH]; intros d; [done|].
  cbn [app dict_update]. destruct item as [|k [|v [|? ?]]]; done.
Qed.

Lemma dict_update_union (items : list (list string)) (d : gmap string string) :
  dict_update items d =
  match dict_update items ∅ with
  | Dict d0 => Dict (d0 ∪ d)
  | ValueError => ValueError
  end.
Proof.
  revert d. induction items as [|item items IH]; intros d.
  - cbn [dict_update]. by rewrite (left_id_L ∅ (∪)).
  - cbn [dict_update]. destruct item as [|k [|v [|? ?]]]; try done.
    rewrite (IH (<[k:=v]> d)), (IH (<[k:=v]> ∅)).
    destruct (dict_update items ∅) as [d0|]; [|done].
    by rewrite insert_empty, (insert_union_singleton_l d), (assoc_L (∪)).
Qed.

Lemma dict_update_ValueError (items : list (list string)) (d : gmap string string) :
  dict_update items d = ValueError
  <-> Exists (fun item => List.length item <> 2%nat) items.
Proof.
  revert d. induction items as [|item items IH]; intros d.
  - cbn [dict_update]. rewrite Exists_nil. split; [done|tauto].
  - rewrite Exists_cons. cbn [dict_update].
    destruct item as [|k [|v [|? ?]]]; cbn [List.length];
      try (split; [intros _; left; lia|done]).
    rewrite IH. split; [tauto|intros [?|?]; [lia|done]].
Qed.

Lemma dict_update_pairs (kvs : list (string * string)) (d : gmap string string) :
  dict_update (map (fun kv => [kv.1; kv.2]) kvs) d
  = Dict (list_to_map (rev kvs) ∪ d).
Proof.
  revert d. induction kvs as [|[k v] kvs IH]; intros d.
  - cbn. by rewrite (left_id_L ∅ (∪)).
  - cbn [map dict_update rev fst snd]. rewrite IH, list_to_map_app. f_equal.
    cbn [list_to_map foldr uncurry fst snd].
    by rewrite insert_empty, (insert_union_singleton_l d), (assoc_L (∪)).
Qed.

Lemma rule_text_split (kv : string * string) :
  count_symbol ":" kv.1 = 0%nat -> count_symbol ":" kv.2 = 0%nat ->
  str_split ":" (rule_text kv) = [kv.1; kv.2].
Proof.
  intros Hk Hv. unfold rule_text.
  change (String.append ":" kv.2) with (String ":" kv.2).
  by rewrite str_split_app, !str_split_no_sep.
Qed.

Lemma rule_texts_split (kvs : list (string * string)) :
  Forall (fun kv => count_symbol ":" kv.1 = 0%nat /\ count_symbol ":" kv.2 = 0%nat)
         kvs ->
  map (str_split ":") (map rule_text kvs) = map (fun kv => [kv.1; kv.2]) kvs.
Proof.
  induction 1 as [|kv kvs [Hk Hv] _ IH]; [done|].
  cbn [map]. by rewrite rule_text_split, IH.
Qed.

Lemma rule_text_no_comma (kv : string * string) :
  count_symbol "," kv.1 = 0%nat -> count_symbol "," kv.2 = 0%nat ->
  count_symbol "," (rule_text kv) = 0%nat.
Proof.
  intros Hk Hv. unfold rule_text. rewrite !count_symbol_app, Hk, Hv. done.
Qed.

(** X11. The rules text is turned into a dictionary exactly when each of
    its comma-separated pieces holds exactly one colon; in every other case
    building the dictionary raises [ValueError]. The empty text is such a
    case. *)
Theorem parse_rules_raises_iff :
  (forall rules_text,
      parse_rules rules_text = ValueError
      <-> exists rule, rule ∈ str_split "," rules_text
                       /\ count_symbol ":" rule <> 1%nat)
  /\ parse_rules "" = ValueError.
Proof.
  split; [|done]. intros rules_text. unfold parse_rules, py_dict.
  rewrite dict_update_ValueError, Exists_exists. split.
  - intros (item & (rule & -> & Hrule)%list_elem_of_fmap & Hlen).
    exists rule. split; [done|].
    rewrite str_split_length in Hlen. lia.
  - intros (rule & Hrule & Hcount).
    exists (str_split ":" rule). split.
    + apply list_elem_of_fmap. by exists rule.
    + rewrite str_split_length. lia.
Qed.

(** X12. Rules written as key, colon, replacement and joined with commas
    are read back as written, a later rule for a key replacing an earlier
    one, provided there is at least one rule and no key or replacement holds
    a colon or a comma. The key may be any string: empty, or of several
    symbols. *)
Theorem parse_rules_round_trip (kvs : list (string * string)) :
  kvs <> [] ->
  Forall (fun kv => count_symbol ":" kv.1 = 0%nat /\ count_symbol ":" kv.2 = 0%nat
                    /\ count_symbol "," kv.1 = 0%nat /\ count_symbol "," kv.2 = 0%nat)
         kvs ->
  parse_rules (String.concat "," (map rule_text kvs))
  = Dict (list_to_map (rev kvs)).
Proof.
  intros Hne Hall. unfold parse_rules, py_dict.
  rewrite str_split_concat.
  - rewrite rule_texts_split.
    + by rewrite dict_update_pairs, (right_id_L ∅ (∪)).
    + eapply Forall_impl; [exact Hall|]. by intros kv (Hk & Hv & _).
  - by destruct kvs.
  - apply Forall_fmap. eapply Forall_impl; [exact Hall|].
    intros kv (_ & _ & Hk & Hv). by apply rule_text_no_comma.
Qed.

(** X13. Reading two rules texts joined by a comma: it raises when either
    text alone raises, and otherwise gives the rules of both, those of the
    second text replacing those of the first on a common key. *)
Theorem parse_rules_comma (a b : string) :
  parse_rules (a +:+ String "," b) =
  match parse_rules a, parse_rules b with
  | Dict da, Dict db => Dict (db ∪ da)
  | _, _ => ValueError
  end.
Proof.
  unfold parse_rules, py_dict.
  rewrite str_split_app, map_app, dict_update_app.
  destruct (dict_update (map (str_split ":") (str_split "," a)) ∅) as [da|].
  - rewrite dict_update_union.
    by destruct (dict_update (map (str_split ":") (str_split "," b)) ∅).
  - by destruct (dict_update (map (str_split ":") (str_split "," b)) ∅).
Qed.

(** ** The presets *)

Lemma bracket_safe_draw_returns {N : Numeric} (axiom : string)
    (rules : gmap string string) (iterations : Z) (angle len : num)
    (color : string) (lw : Z) :
  bracket_safe rules ->
  pops_matched axiom = true ->
  exists fig,
    draw_l_system axiom rules iterations angle len color lw = Returns fig.
Proof.
  intros Hsafe Hok. unfold draw_l_system. rewrite get_l_system_to_nat.
  destruct (expand_spec_brackets axiom rules (Z.to_nat iterations) Hsafe)
    as [Hcheck _].
  destruct (interpret_returns angle len color lw
              (expand_spec axiom rules (Z.to_nat iterations)) initial_turtle)
    as (t & -> & _); [by rewrite Hcheck|].
  by eexists.
Qed.

(** X14. Every preset of [default_settings] works as it is offered: its
    default rules text is read into a dictionary without an exception, every
    key of that dictionary is a single symbol, and the drawing of its axiom
    under these rules returns a figure for every iteration count, angle and
    step length. *)
Theorem default_settings_draw :
  Forall
    (fun p =>
       exists rules,
         parse_rules (default_rules_text p) = Dict rules
         /\ map_Forall (fun k _ => single_symbol k = true) rules
         /\ forall (N : Numeric) (iterations : Z) (angle len : num)
                   (color : string) (lw : Z),
              exists fig,
                draw_l_system (default_axiom p) rules iterations
                  angle len color lw = Returns fig)
    default_settings.
Proof.
  unfold default_settings.
  repeat (apply Forall_cons; split;
          [eexists; split_and!;
           [vm_compute; reflexivity
           |apply (bool_decide_unpack _); vm_compute; exact I
           |intros; apply bracket_safe_draw_returns;
            [unfold bracket_safe; apply (bool_decide_unpack _);
             vm_compute; exact I
            |vm_compute; reflexivity]]|]).
  constructor.
Qed.

(** ** Exact arithmetic: lengths and turns *)







(** ** Instances of the further properties *)

(** X1 at one and then two generations of a doubling rule. *)
Lemma get_l_system_compose_witness :
  _get_l_system (_get_l_system "F" {["F" := "F+F"]} 1) {["F" := "F+F"]} 2
  = _get_l_system "F" {["F" := "F+F"]} (1 + 2).
Proof. apply get_l_system_compose; lia. Defined.

(** X2 on a string of turns and brackets under a rule for F alone. *)
Lemma get_l_system_without_rule_witness :
  has_rule {["F" := "FF"]} "+-[]" = false
  /\ _get_l_system "+-[]" {["F" := "FF"]} 7 = "+-[]".
Proof.
  assert (has_rule {["F" := "FF"]} "+-[]" = false) as Hnone
    by (vm_compute; reflexivity).
  split; [exact Hnone|].
  exact (proj1 get_l_system_without_rule "+-[]" {["F" := "FF"]} 7 Hnone).
Defined.

(** X3 for the rule of Koch's snowflake, whose replacement has eight
    symbols. *)
Lemma get_l_system_length_bounds_witness :
  (String.length "F++F++F"
   <= String.length (_get_l_system "F++F++F" {["F" := "F-F++F-F"]} (Z.of_nat 3))
   <= String.length "F++F++F" * 8 ^ 3)%nat.
Proof.
  apply get_l_system_length_bounds; [lia|].
  apply (bool_decide_unpack _). vm_compute. exact I.
Defined.

(** X4 for the rule of the Weed preset and an axiom with a bracket left
    open. *)
Lemma get_l_system_keeps_brackets_witness :
  pops_matched (_get_l_system "F[F" {["F" := "F[+F]F[-F]F"]} 2)
  = pops_matched "F[F"
  /\ balanced (_get_l_system "F[F" {["F" := "F[+F]F[-F]F"]} 2)
     = balanced "F[F".
Proof.
  apply get_l_system_keeps_brackets.
  unfold bracket_safe. apply (bool_decide_unpack _). vm_compute. exact I.
Defined.

(** X6 for the Weed preset at three iterations. *)
Lemma draw_l_system_bracket_safe_returns_witness :
  exists t,
    interpret (N := exact_arithmetic) 25%R 10%R "tab:orange" 1
      (_get_l_system "F" {["F" := "F[+F]F[-F]F"]} 3) initial_turtle = Returns t
    /\ draw_l_system (N := exact_arithmetic) "F" {["F" := "F[+F]F[-F]F"]} 3
         25%R 10%R "tab:orange" 1 = Returns (ax_lines t)
    /\ (balanced "F" = true -> stack t = []).
Proof.
  apply draw_l_system_bracket_safe_returns; [|reflexivity].
  unfold bracket_safe. apply (bool_decide_unpack _). vm_compute. exact I.
Defined.

(** X7 for Koch's snowflake: three [F]s in the axiom, four in the
    replacement. *)
Lemma draw_l_system_count_F_geometric_witness :
  count_symbol "F" (_get_l_system "F++F++F" {["F" := "F-F++F-F"]} (Z.of_nat 2))
  = (count_symbol "F" "F++F++F" * count_symbol "F" "F-F++F-F" ^ 2)%nat
  /\ (forall fig,
        draw_l_system (N := exact_arithmetic) "F++F++F" {["F" := "F-F++F-F"]}
          (Z.of_nat 2) 60%R 10%R "tab:orange" 1 = Returns fig ->
        List.length fig
        = (count_symbol "F" "F++F++F" * count_symbol "F" "F-F++F-F" ^ 2)%nat).
Proof.
  apply draw_l_system_count_F_geometric; [vm_compute; reflexivity|].
  apply (bool_decide_unpack _). vm_compute. exact I.
Defined.

(** X8 on a sequence of two lines. *)
Lemma draw_l_system_style_witness :
  Forall (fun l => line_color l = "tab:orange" /\ line_lw l = 1)
    (segments_of
       (draw_l_system (N := exact_arithmetic) "F+F" ∅ 0 90%R 1%R "tab:orange" 1)).
Proof.
  exact (draw_l_system_style (N := exact_arithmetic) 90%R 1%R "tab:orange" 1
           "F+F" ∅ 0 _ eq_refl).
Defined.

(** X9 for the first generation of Koch's snowflake. *)
Lemma draw_l_system_connected_path_witness :
  exists fig,
    draw_l_system (N := exact_arithmetic) "F++F++F" {["F" := "F-F++F-F"]} 1
      60%R 10%R "tab:orange" 1 = Returns fig
    /\ chained fig
    /\ (forall l, fig !! 0%nat = Some l -> seg_start l = (0%R, 0%R)).
Proof.
  apply (draw_l_system_connected_path (N := exact_arithmetic));
    vm_compute; reflexivity.
Defined.

(** X10 for a block that turns and moves without drawing. *)
Lemma interpret_skips_silent_block_witness :
  interpret (N := exact_arithmetic) 90%R 1%R "tab:orange" 1
    ("F" +:+ String "[" ("+[-b]-" +:+ String "]" "F")) initial_turtle
  = interpret (N := exact_arithmetic) 90%R 1%R "tab:orange" 1
      ("F" +:+ "F") initial_turtle.
Proof.
  apply (interpret_skips_silent_block (N := exact_arithmetic)); reflexivity.
Defined.

(** X12 on the two rules of the help text. *)
Lemma parse_rules_round_trip_witness :
  parse_rules (String.concat "," (map rule_text [("F", "F+F-F"); ("b", "bbb")]))
  = Dict (list_to_map (rev [("F", "F+F-F"); ("b", "bbb")])).
Proof.
  apply parse_rules_round_trip; [discriminate|].
  repeat constructor.
Defined.

